(** * Linear epistasis models: a shallow embedding of [epistasis/models/linear.py]

    The module fits a genotype-phenotype map to a linear model
    [phenotypes = X . coefficients], in a local (mutant-cycle) and a global
    (Hadamard) basis.  Python floats are idealised as real numbers, NumPy
    arrays as lists carrying their shape, and Python exceptions as the
    [Raise] branch of a result type. *)

From Stdlib Require Import Reals String Ascii ZArith Bool Arith Lia Lra List.
From Stdlib Require Import ClassicalEpsilon.
Import ListNotations.

Set Implicit Arguments.
Local Open Scope R_scope.

(* ------------------------------------------------------------ *)
(** ** Exceptions and results *)
(* ------------------------------------------------------------ *)

Inductive exn : Set :=
| IndexError
| KeyError
| TypeError
| ValueError
| ZeroDivisionError
| LinAlgError
| ConfigurationError
| DataValidityError.

Inductive result (A : Type) : Type :=
| Ok (a : A)
| Raise (e : exn).

Arguments Ok {A} a.
Arguments Raise {A} e.

Definition bind {A B : Type} (r : result A) (k : A -> result B) : result B :=
  match r with
  | Ok a => k a
  | Raise e => Raise e
  end.

Notation "x <- r ;; k" := (bind r (fun x => k))
  (at level 61, r at next level, right associativity).

(** Monadic traversal of a list, left to right, stopping at the first
    exception. *)
Fixpoint mapM {A B : Type} (f : A -> result B) (xs : list A) : result (list B) :=
  match xs with
  | [] => Ok []
  | x :: xs' => y <- f x ;; ys <- mapM f xs' ;; Ok (y :: ys)
  end.

(* ------------------------------------------------------------ *)
(** ** NumPy arrays *)
(* ------------------------------------------------------------ *)

(** One-dimensional arrays are lists; their shape is their length. *)
Abbreviation vector := (list R).

(** Two-dimensional arrays keep their shape next to their rows, so that an
    array with no rows still has a column count. *)
Record ndarray : Type := mkArray {
  shape : nat * nat;
  rows : list vector
}.

Definition well_shaped (A : ndarray) : Prop :=
  length (rows A) = fst (shape A) /\
  Forall (fun r => length r = snd (shape A)) (rows A).





(** Inner product of two vectors of the same length. *)
Fixpoint dot (u v : vector) : R :=
  match u, v with
  | x :: u', y :: v' => x * y + dot u' v'
  | _, _ => 0
  end.

(** [np.dot(A, v)] for a matrix and a vector: the shapes must agree. *)
Definition np_dot (A : ndarray) (v : vector) : result vector :=
  if Nat.eqb (snd (shape A)) (length v)
  then Ok (map (fun r => dot r v) (rows A))
  else Raise ValueError.

(** [v ** 2], [np.sqrt(v)] and [c * v] on vectors, elementwise.  The square
    roots taken in this module are roots of sums of non-negative terms. *)
Definition vsquare (v : vector) : vector := map (fun x => x ^ 2) v.
Definition np_sqrt (v : vector) : vector := map sqrt v.
Definition vscale (c : R) (v : vector) : vector := map (Rmult c) v.

(** [abs(A)] and [c * A] on matrices, elementwise. *)
Definition np_abs (A : ndarray) : ndarray :=
  mkArray (shape A) (map (map Rabs) (rows A)).
Definition mscale (c : R) (A : ndarray) : ndarray :=
  mkArray (shape A) (map (vscale c) (rows A)).

(** Sum of vectors [c_k * b_k]: the row [u . B] of a matrix product. *)
Definition vadd (u v : vector) : vector := map (fun p => fst p + snd p) (combine u v).

Fixpoint lincomb (width : nat) (u : vector) (B : list vector) : vector :=
  match u, B with
  | c :: u', b :: B' => vadd (vscale c b) (lincomb width u' B')
  | _, _ => repeat 0 width
  end.

(** The matrix product [np.dot(A, B)]. *)
Definition matmul (A B : ndarray) : ndarray :=
  mkArray (fst (shape A), snd (shape B))
          (map (fun r => lincomb (snd (shape B)) r (rows B)) (rows A)).

(** [np.identity(k)] *)
Fixpoint identity_rows (k : nat) : list vector :=
  match k with
  | O => []
  | S k' => (1 :: repeat 0 k') :: map (cons 0) (identity_rows k')
  end.

Definition np_identity (k : nat) : ndarray := mkArray (k, k) (identity_rows k).

(** [B] is the two-sided inverse of the square matrix [A]. *)
Definition is_inverse (A B : ndarray) : Prop :=
  well_shaped A /\ well_shaped B /\
  fst (shape A) = snd (shape A) /\ shape B = shape A /\
  matmul A B = np_identity (fst (shape A)) /\
  matmul B A = np_identity (fst (shape A)).

Definition invertible (A : ndarray) : Prop := exists B, is_inverse A B.

(** [np.linalg.inv(A)]: the inverse of a square, non-singular matrix;
    [LinAlgError] when the matrix is not square or is singular.  The
    routine belongs to the library; it is modelled by this contract, in
    exact arithmetic.  A matrix has at most one inverse ([inverse_unique]
    below), so the contract determines the result. *)
Definition np_linalg_inv (A : ndarray) : result ndarray :=
  match excluded_middle_informative (invertible A) with
  | left H => Ok (proj1_sig (constructive_indefinite_description _ H))
  | right _ => Raise LinAlgError
  end.

(* ------------------------------------------------------------ *)
(** ** Unique epistasis functions *)
(* ------------------------------------------------------------ *)

(** [s.count(c)] for a one-character [c]. *)
Fixpoint count (c : ascii) (s : string) : nat :=
  match s with
  | EmptyString => O
  | String a s' => (if Ascii.eqb a c then 1 else 0) + count c s'
  end.






(** An interaction label: the 1-based sites taking part in the term; the
    empty label is the intercept. *)
Definition label := list nat.

(** The list comprehension [[l for l in labels if len(l) <= order]]: the
    result starts empty and each selected label is appended to it. *)
Definition cut_interaction_labels (labels : list label) (order : Z) : list label :=
  fold_left
    (fun acc l => if (Z.of_nat (length l) <=? order)%Z then acc ++ [l] else acc)
    labels [].

(* ------------------------------------------------------------ *)
(** ** The collaborators of the model classes *)
(* ------------------------------------------------------------ *)

(** [self.Binary]: the binary-encoded genotypes with their phenotypes and,
    when they were supplied, the phenotype errors. *)
Module Binary.
Record t : Type := mk {
  genotypes : list string;
  phenotypes : vector;
  errors : option vector
}.
End Binary.

(** [self.Interactions]: the interaction labels with the fitted values and
    errors; an attribute that was not assigned yet is [None]. *)
Module Interactions.
Record t : Type := mk {
  labels : list label;
  values : option vector;
  errors : option vector
}.
End Interactions.

(** The object as [super().__init__] of the genotype-phenotype map leaves
    it.  That constructor is outside this module; the state it builds is
    the argument of the constructors below. *)
Module BaseModel.
Record t : Type := mk {
  wildtype : string;
  length : nat;
  Binary : Binary.t
}.

(** Modelled from the spec: the attribute [n] of the base class, which is
    not in this module, is the number of genotypes. *)
Definition n (self : t) : nat :=
  List.length (Binary.genotypes (Binary self)).
End BaseModel.

(** Modelled from the spec: the labels of one order of the interaction
    enumerator, which is not in this module: all increasing tuples of [k]
    sites out of [sites], in lexicographic order. *)
Fixpoint combinations (sites : list nat) (k : nat) : list label :=
  match sites with
  | [] => match k with O => [[]] | S _ => [] end
  | s :: rest =>
      match k with
      | O => [[]]
      | S k' => map (cons s) (combinations rest k') ++ combinations rest (S k')
      end
  end.

(** Modelled from the spec: the interaction enumerator, which is not in this
    module.  For [n] sites and an order [k <= n] it lists the labels of size
    0 to [k] over the sites 1 to [n], order by order and lexicographically
    within an order; an order above [n] is a configuration error. *)
Definition interaction_labels (n k : nat) : result (list label) :=
  if Nat.ltb n k then Raise ConfigurationError
  else Ok (flat_map (combinations (seq 1 n)) (seq 0 (S k))).

(** Modelled from the spec: the method [_construct_interactions] of the base
    class, which is not in this module.  It enumerates the labels up to
    [order]; the values and the errors are not assigned yet. *)
Definition _construct_interactions (self : BaseModel.t) (order : nat)
    : result Interactions.t :=
  ls <- interaction_labels (BaseModel.length self) order ;;
  Ok (Interactions.mk ls None None).

(** A Python dict from characters to integers, as written in the source. *)
Definition dict := list (ascii * Z).

Fixpoint dict_get (d : dict) (c : ascii) : result Z :=
  match d with
  | [] => Raise KeyError
  | (k, v) :: d' => if Ascii.eqb k c then Ok v else dict_get d' c
  end.

(** Modelled from the spec: the validity check of [generate_dv_matrix] on a
    genotype string, whose characters must be 0 or 1. *)
Fixpoint is_binary (g : string) : bool :=
  match g with
  | EmptyString => true
  | String a g' => (Ascii.eqb a "0" || Ascii.eqb a "1") && is_binary g'
  end.

(** Modelled from the spec: in [generate_dv_matrix], the encoded character
    of genotype [g] at the 1-based [site]. *)
Definition site_value (encoding : dict) (g : string) (site : nat) : result Z :=
  match site with
  | O => Raise DataValidityError
  | S i =>
      match String.get i g with
      | None => Raise DataValidityError
      | Some c => dict_get encoding c
      end
  end.

(** Modelled from the spec: in [generate_dv_matrix], the entry for genotype
    [g] and label [l]: the product of the encoded characters at the sites of
    [l]; 1 for the empty label. *)
Definition dv_entry (encoding : dict) (g : string) (l : label) : result Z :=
  zs <- mapM (site_value encoding g) l ;;
  Ok (fold_right Z.mul 1%Z zs).

(** Modelled from the spec: in [generate_dv_matrix], the row of the genotype
    [g]. *)
Definition dv_row (encoding : dict) (labels : list label) (g : string)
    : result vector :=
  if is_binary g
  then zs <- mapM (dv_entry encoding g) labels ;; Ok (map IZR zs)
  else Raise DataValidityError.

(** Modelled from the spec: [generate_dv_matrix] of [epistasis.decomposition],
    which is not in this module.  One row per genotype and one column per
    label, in the given orders; the entry is the product over the sites of
    the label of the encoded genotype characters; a character that is not
    binary is a data-validity error. *)
Definition generate_dv_matrix (genotypes : list string) (labels : list label)
    (encoding : dict) : result ndarray :=
  rs <- mapM (dv_row encoding labels) genotypes ;;
  Ok (mkArray (List.length genotypes, List.length labels) rs).

(* ------------------------------------------------------------ *)
(** ** Epistasis mapping classes *)
(* ------------------------------------------------------------ *)

(** The object of either class once its constructor has returned. *)
Record Model : Type := mkModel {
  base : BaseModel.t;
  order : nat;
  Interactions : Interactions.t;
  X : ndarray;
  X_inv : ndarray
}.

Definition n (self : Model) : nat := BaseModel.n (base self).
Definition Binary (self : Model) : Binary.t := BaseModel.Binary (base self).

(** [self.Interactions.values = v] and [self.Interactions.errors = v] *)
Definition set_values (self : Model) (v : vector) : Model :=
  mkModel (base self) (order self)
    (Interactions.mk (Interactions.labels (Interactions self)) (Some v)
                     (Interactions.errors (Interactions self)))
    (X self) (X_inv self).

Definition set_errors (self : Model) (v : vector) : Model :=
  mkModel (base self) (order self)
    (Interactions.mk (Interactions.labels (Interactions self))
                     (Interactions.values (Interactions self)) (Some v))
    (X self) (X_inv self).

(** [1/(self.n)] on a Python integer: true division. *)
Definition py_inv (k : nat) : result R :=
  if Nat.eqb k 0 then Raise ZeroDivisionError else Ok (1 / INR k).

(** [x ** 2] where [x] may be [None]. *)
Definition py_square (x : option vector) : result vector :=
  match x with
  | None => Raise TypeError
  | Some e => Ok (vsquare e)
  end.

(** In both classes the constructor first calls [super().__init__] on its
    arguments (wildtype, genotypes, phenotypes, errors, log_transform,
    mutations); [self] below is the object after that call. *)
Module LocalEpistasisModel.

(** The dict passed as [encoding] to [generate_dv_matrix]. *)
Definition encoding : dict := [("1"%char, 1%Z); ("0"%char, 0%Z)].

Definition __init__ (self : BaseModel.t) : result Model :=
  let order := BaseModel.length self in
  interactions <- _construct_interactions self order ;;
  X <- generate_dv_matrix (Binary.genotypes (BaseModel.Binary self))
         (Interactions.labels interactions) encoding ;;
  X_inv <- np_linalg_inv X ;;
  Ok (mkModel self order interactions X X_inv).

Definition fit (self : Model) : result Model :=
  v <- np_dot (X_inv self) (Binary.phenotypes (Binary self)) ;;
  Ok (set_values self v).

Definition fit_error (self : Model) : result Model :=
  e2 <- py_square (Binary.errors (Binary self)) ;;
  v <- np_dot (X self) e2 ;;
  Ok (set_errors self (np_sqrt v)).

End LocalEpistasisModel.

Module GlobalEpistasisModel.

(** The dict passed as [encoding] to [generate_dv_matrix]. *)
Definition encoding : dict := [("1"%char, 1%Z); ("0"%char, (-1)%Z)].

Definition __init__ (self : BaseModel.t) : result Model :=
  let order := BaseModel.length self in
  interactions <- _construct_interactions self order ;;
  X <- generate_dv_matrix (Binary.genotypes (BaseModel.Binary self))
         (Interactions.labels interactions) encoding ;;
  X_inv <- np_linalg_inv X ;;
  Ok (mkModel self order interactions X X_inv).

Definition fit (self : Model) : result Model :=
  c <- py_inv (n self) ;;
  v <- np_dot (X_inv self) (Binary.phenotypes (Binary self)) ;;
  Ok (set_values self (vscale c v)).

Definition fit_error (self : Model) : result Model :=
  c <- py_inv (n self) ;;
  e2 <- py_square (Binary.errors (Binary self)) ;;
  v <- np_dot (mscale (c ^ 2) (np_abs (X self))) e2 ;;
  Ok (set_errors self (np_sqrt v)).

End GlobalEpistasisModel.

(* ------------------------------------------------------------ *)
(** ** The two classes side by side *)
(* ------------------------------------------------------------ *)

(** The construction protocol in the words of the specification: set the
    order to the full length, enumerate the labels, build [X] under the
    encoding of the variant, invert it once.  Only [encoding] depends on the
    variant. *)
Definition construct_model (encoding : dict) (self : BaseModel.t) : result Model :=
  let order := BaseModel.length self in
  interactions <- _construct_interactions self order ;;
  X <- generate_dv_matrix (Binary.genotypes (BaseModel.Binary self))
         (Interactions.labels interactions) encoding ;;
  X_inv <- np_linalg_inv X ;;
  Ok (mkModel self order interactions X X_inv).

(** The design matrix a constructor is about to invert. *)
Definition design_matrix (encoding : dict) (self : BaseModel.t) : result ndarray :=
  interactions <- _construct_interactions self (BaseModel.length self) ;;
  generate_dv_matrix (Binary.genotypes (BaseModel.Binary self))
    (Interactions.labels interactions) encoding.

Inductive variant : Set := Local | Global.

Definition encoding_of (c : variant) : dict :=
  match c with
  | Local => LocalEpistasisModel.encoding
  | Global => GlobalEpistasisModel.encoding
  end.

Definition init_of (c : variant) : BaseModel.t -> result Model :=
  match c with
  | Local => LocalEpistasisModel.__init__
  | Global => GlobalEpistasisModel.__init__
  end.

(** A method call on a constructed object. *)
Inductive method : Set := Fit | FitError.

Definition call (c : variant) (mth : method) : Model -> result Model :=
  match c, mth with
  | Local, Fit => LocalEpistasisModel.fit
  | Local, FitError => LocalEpistasisModel.fit_error
  | Global, Fit => GlobalEpistasisModel.fit
  | Global, FitError => GlobalEpistasisModel.fit_error
  end.

(** The object after a sequence of calls; a call that raises assigns
    nothing, and the caller goes on with the object as it was. *)
Fixpoint run (c : variant) (calls : list method) (self : Model) : Model :=
  match calls with
  | [] => self
  | mth :: calls' =>
      match call c mth self with
      | Ok self' => run c calls' self'
      | Raise _ => run c calls' self
      end
  end.

(** A map over one site: the wildtype ["0"] and its mutant ["1"]. *)
Definition one_site (phenotypes : vector) (errors : option vector) : BaseModel.t :=
  BaseModel.mk "0" 1 (Binary.mk ["0"%string; "1"%string] phenotypes errors).


(** The round trip through the basis, as a property of a variant on a map:
    once constructed and fitted, [X . coefficients] is the phenotype
    vector. *)
Definition round_trip (c : variant) (self : BaseModel.t) : Prop :=
  forall m m' v,
    init_of c self = Ok m ->
    call c Fit m = Ok m' ->
    Interactions.values (Interactions m') = Some v ->
    np_dot (X m') v = Ok (Binary.phenotypes (BaseModel.Binary self)).

(** The design matrices of [one_site] and their inverses. *)
Definition one_site_local_X : ndarray := mkArray (2, 2)%nat [[1; 0]; [1; 1]].
Definition one_site_local_X_inv : ndarray := mkArray (2, 2)%nat [[1; 0]; [-1; 1]].
Definition one_site_global_X : ndarray := mkArray (2, 2)%nat [[1; -1]; [1; 1]].
Definition one_site_global_X_inv : ndarray :=
  mkArray (2, 2)%nat [[1 / 2; 1 / 2]; [- (1 / 2); 1 / 2]].

(** The models the two constructors build on [one_site]. *)
Definition one_site_model (c : variant) (phenotypes : vector)
    (errors : option vector) : Model :=
  mkModel (one_site phenotypes errors) 1
    (Interactions.mk [[]; [1%nat]] None None)
    (match c with Local => one_site_local_X | Global => one_site_global_X end)
    (match c with Local => one_site_local_X_inv | Global => one_site_global_X_inv end).

(** The map of the fixture of the test suite: three sites, all eight
    genotypes, the phenotypes as exact decimals. *)
Definition fixture_genotypes : list string :=
  ["000"; "001"; "010"; "100"; "011"; "101"; "110"; "111"]%string.

Definition fixture_phenotypes : vector :=
  [1 / 10; 1 / 10; 5 / 10; 4 / 10; 2 / 10; 8 / 10; 5 / 10; 1].

Definition fixture : BaseModel.t :=
  BaseModel.mk "000" 3 (Binary.mk fixture_genotypes fixture_phenotypes None).

Definition fixture_labels : list label :=
  [[]; [1]; [2]; [3]; [1; 2]; [1; 3]; [2; 3]; [1; 2; 3]]%nat.

Definition fixture_local_X : ndarray :=
  mkArray (8, 8)%nat
    [[1; 0; 0; 0; 0; 0; 0; 0];
     [1; 0; 0; 1; 0; 0; 0; 0];
     [1; 0; 1; 0; 0; 0; 0; 0];
     [1; 1; 0; 0; 0; 0; 0; 0];
     [1; 0; 1; 1; 0; 0; 1; 0];
     [1; 1; 0; 1; 0; 1; 0; 0];
     [1; 1; 1; 0; 1; 0; 0; 0];
     [1; 1; 1; 1; 1; 1; 1; 1]].

Definition fixture_local_X_inv : ndarray :=
  mkArray (8, 8)%nat
    [[1; 0; 0; 0; 0; 0; 0; 0];
     [-1; 0; 0; 1; 0; 0; 0; 0];
     [-1; 0; 1; 0; 0; 0; 0; 0];
     [-1; 1; 0; 0; 0; 0; 0; 0];
     [1; 0; -1; -1; 0; 0; 1; 0];
     [1; -1; 0; -1; 0; 1; 0; 0];
     [1; -1; -1; 0; 1; 0; 0; 0];
     [-1; 1; 1; 1; -1; -1; -1; 1]].

Definition fixture_local_model : Model :=
  mkModel fixture 3 (Interactions.mk fixture_labels None None)
    fixture_local_X fixture_local_X_inv.

(* ------------------------------------------------------------ *)
(** ** The helpers of the test module *)
(* ------------------------------------------------------------ *)

(** The link function of [tests/test_nonlinear.py] and its inverse, on
    Python numbers: a division by zero raises. *)
Module test_nonlinear.

Definition function (x A B : R) : R := A * x + B.

Definition reverse (y A B : R) : result R :=
  if Req_dec_T A 0 then Raise ZeroDivisionError else Ok ((y - B) / A).

End test_nonlinear.

(* ------------------------------------------------------------ *)
(** ** Vocabulary of the further properties *)
(* ------------------------------------------------------------ *)

(** The object of the base class with another phenotype vector. *)
Definition with_phenotypes (self : BaseModel.t) (p : vector) : BaseModel.t :=
  BaseModel.mk (BaseModel.wildtype self) (BaseModel.length self)
    (Binary.mk (Binary.genotypes (BaseModel.Binary self)) p
               (Binary.errors (BaseModel.Binary self))).

Definition method_eqb (a b : method) : bool :=
  match a, b with
  | Fit, Fit | FitError, FitError => true
  | _, _ => false
  end.

(** Whether [mth] occurs in a sequence of calls. *)
Definition called (mth : method) (calls : list method) : bool :=
  existsb (method_eqb mth) calls.

(* ------------------------------------------------------------ *)
(** ** Results and lists *)
(* ------------------------------------------------------------ *)

Lemma bind_Ok {A B : Type} (r : result A) (k : A -> result B) (b : B) :
  bind r k = Ok b -> exists a, r = Ok a /\ k a = Ok b.
Proof.
  destruct r as [a|e]; simpl; intros H.
  - exists a; split; [reflexivity | exact H].
  - discriminate H.
Qed.

(** Inversion of a successful run of binds, one bind at a time. *)
Ltac inv_bind H :=
  let a := fresh "a" in
  let Ha := fresh "Ha" in
  apply bind_Ok in H; destruct H as (a & Ha & H).

Ltac inv_Ok H := injection H as H; subst.

Lemma mapM_Ok_length {A B : Type} (f : A -> result B) xs ys :
  mapM f xs = Ok ys -> length ys = length xs.
Proof.
  revert ys; induction xs as [|x xs IH]; simpl; intros ys H.
  - inv_Ok H. reflexivity.
  - inv_bind H. inv_bind H. inv_Ok H. simpl. f_equal. apply IH. assumption.
Qed.

Lemma mapM_Ok_nth {A B : Type} (f : A -> result B) xs ys i x :
  mapM f xs = Ok ys -> nth_error xs i = Some x ->
  exists y, nth_error ys i = Some y /\ f x = Ok y.
Proof.
  revert ys i; induction xs as [|x0 xs IH]; simpl; intros ys i H Hi.
  - destruct i; discriminate Hi.
  - inv_bind H. inv_bind H. inv_Ok H. destruct i as [|i]; simpl in *.
    + inv_Ok Hi. exists a. split; [reflexivity | assumption].
    + eapply IH; eassumption.
Qed.

Lemma mapM_Ok_Forall {A B : Type} (f : A -> result B) (P : B -> Prop) xs ys :
  (forall x y, In x xs -> f x = Ok y -> P y) ->
  mapM f xs = Ok ys -> Forall P ys.
Proof.
  revert ys; induction xs as [|x xs IH]; simpl; intros ys HP H.
  - inv_Ok H. constructor.
  - inv_bind H. inv_bind H. inv_Ok H. constructor.
    + apply (HP x); [left; reflexivity | assumption].
    + apply IH; [|assumption]. intros x' y Hin. apply HP. right. exact Hin.
Qed.

(* ------------------------------------------------------------ *)
(** ** Algebra of vectors and matrices *)
(* ------------------------------------------------------------ *)

Lemma dot_zeros_l k v : dot (repeat 0 k) v = 0.
Proof.
  revert v; induction k as [|k IH]; intros [|y v]; simpl; try reflexivity.
  rewrite IH. ring.
Qed.

Lemma dot_vscale_l c u v : dot (vscale c u) v = c * dot u v.
Proof.
  revert v; induction u as [|x u IH]; intros [|y v]; simpl; try ring.
  rewrite IH. ring.
Qed.

Lemma dot_vscale_r c u v : dot u (vscale c v) = c * dot u v.
Proof.
  revert v; induction u as [|x u IH]; intros [|y v]; simpl; try ring.
  rewrite IH. ring.
Qed.

Lemma dot_vadd_l a b v :
  length a = length v -> length b = length v ->
  dot (vadd a b) v = dot a v + dot b v.
Proof.
  revert b v; induction a as [|x a IH]; intros [|y b] [|z v] Ha Hb;
    simpl in *; try discriminate; try ring.
  unfold vadd in IH. rewrite IH by lia. ring.
Qed.

Lemma length_vscale c u : length (vscale c u) = length u.
Proof. apply length_map. Qed.

Lemma length_vadd a b : length a = length b -> length (vadd a b) = length a.
Proof.
  intros H. unfold vadd. rewrite length_map, length_combine, H. apply Nat.min_id.
Qed.

Lemma length_lincomb w u B :
  Forall (fun b => length b = w) B -> length (lincomb w u B) = w.
Proof.
  intros HB; revert u; induction HB as [|b B Hb HB IH]; intros [|c u]; simpl;
    try apply repeat_length.
  rewrite length_vadd; rewrite length_vscale; [assumption|].
  rewrite IH. assumption.
Qed.

(** A row of the product [A . B] applied to [v] is the row of [A] applied to
    [B . v]. *)
Lemma dot_lincomb u B v :
  Forall (fun b => length b = length v) B ->
  dot (lincomb (length v) u B) v = dot u (map (fun b => dot b v) B).
Proof.
  intros HB; revert u; induction HB as [|b B Hb HB IH]; intros [|c u]; simpl;
    try apply dot_zeros_l.
  rewrite dot_vadd_l.
  - rewrite dot_vscale_l, IH. reflexivity.
  - rewrite length_vscale. assumption.
  - apply length_lincomb. assumption.
Qed.


(** The identity matrix applied to a vector of its size. *)
Lemma identity_rows_dot v :
  map (fun r => dot r v) (identity_rows (length v)) = v.
Proof.
  induction v as [|x v IH]; simpl; [reflexivity|].
  rewrite dot_zeros_l, map_map. simpl. f_equal; [ring|].
  rewrite <- IH at 2. apply map_ext. intros r. ring.
Qed.


(** [np.dot(A, np.dot(B, v)) = np.dot(np.dot(A, B), v)] on the rows. *)
Lemma matvec_assoc A B v :
  Forall (fun b => length b = length v) (rows B) ->
  snd (shape B) = length v ->
  map (fun r => dot r (map (fun b => dot b v) (rows B))) (rows A) =
  map (fun r => dot r v) (rows (matmul A B)).
Proof.
  intros HB Hs. unfold matmul; simpl. rewrite map_map.
  apply map_ext. intros r. rewrite Hs. symmetry. apply dot_lincomb. assumption.
Qed.

(* ------------------------------------------------------------ *)
(** ** The contract of the inversion routine *)
(* ------------------------------------------------------------ *)

Lemma np_linalg_inv_Ok A B : np_linalg_inv A = Ok B -> is_inverse A B.
Proof.
  unfold np_linalg_inv.
  destruct (excluded_middle_informative (invertible A)) as [H|H]; [|discriminate].
  intros E. inv_Ok E.
  exact (proj2_sig (constructive_indefinite_description _ H)).
Qed.

Lemma np_linalg_inv_invertible A :
  invertible A -> exists B, np_linalg_inv A = Ok B.
Proof.
  intros H. unfold np_linalg_inv.
  destruct (excluded_middle_informative (invertible A)) as [H'|H'].
  - eexists; reflexivity.
  - contradiction.
Qed.


(** [X . (X_inv . p) = p] on the rows, for a vector [p] of the right size. *)
Lemma inverse_roundtrip A B p :
  is_inverse A B -> length p = fst (shape A) ->
  map (fun r => dot r (map (fun b => dot b p) (rows B))) (rows A) = p.
Proof.
  intros (HA & HB & Hsq & Hsh & HAB & _) Hp.
  destruct HB as [_ HB]. rewrite Hsh, <- Hsq, <- Hp in HB.
  rewrite matvec_assoc.
  - rewrite HAB. simpl. rewrite <- Hp. apply identity_rows_dot.
  - exact HB.
  - rewrite Hsh, <- Hsq, Hp. reflexivity.
Qed.

Lemma dot_zeros_r u k : dot u (repeat 0 k) = 0.
Proof.
  revert k; induction u as [|x u IH]; intros [|k]; simpl; try reflexivity.
  rewrite IH. ring.
Qed.

(** A vector is determined by its inner products. *)
Lemma dot_ext (r r' : vector) :
  length r = length r' ->
  (forall p, length p = length r -> dot r p = dot r' p) ->
  r = r'.
Proof.
  revert r'; induction r as [|x r IH]; intros [|y r'] Hl Hp;
    simpl in Hl; try discriminate; [reflexivity|].
  f_equal.
  - specialize (Hp (1 :: repeat 0 (length r))). simpl in Hp.
    rewrite !dot_zeros_r, repeat_length in Hp.
    specialize (Hp eq_refl). lra.
  - apply IH; [lia|]. intros p Hlp.
    specialize (Hp (0 :: p)). simpl in Hp. rewrite Hlp in Hp.
    specialize (Hp eq_refl). lra.
Qed.

(** So is a matrix by its products with vectors. *)
Lemma rows_ext k (rs rs' : list vector) :
  length rs = length rs' ->
  Forall (fun r => length r = k) rs -> Forall (fun r => length r = k) rs' ->
  (forall p, length p = k ->
             map (fun r => dot r p) rs = map (fun r => dot r p) rs') ->
  rs = rs'.
Proof.
  intros Hl Hw; revert rs' Hl; induction Hw as [|r rs Hr Hw IH];
    intros [|r' rs'] Hl Hw' Hp; simpl in Hl; try discriminate; [reflexivity|].
  inversion Hw' as [|? ? Hr' Hw'']; subst. f_equal.
  - apply dot_ext; [congruence|]. intros p Hlp.
    specialize (Hp p Hlp). simpl in Hp. injection Hp as Hp _. exact Hp.
  - apply IH; [lia | exact Hw'' |]. intros p Hlp.
    specialize (Hp p Hlp). simpl in Hp. injection Hp as _ Hp. exact Hp.
Qed.

(** A matrix has at most one inverse. *)
Lemma inverse_unique A B B' : is_inverse A B -> is_inverse A B' -> B = B'.
Proof.
  intros HB HB'.
  assert (H := HB). destruct H as ([HlA HwA] & [HlB HwB] & Hsq & HsB & _ & HBA).
  assert (H := HB'). destruct H as (_ & [HlB' HwB'] & _ & HsB' & _).
  destruct B as [sB rB], B' as [sB' rB']. simpl in *. subst sB sB'. f_equal.
  apply rows_ext with (k := snd (shape A)); try assumption; [congruence|].
  intros p Hp. rewrite <- Hsq in Hp.
  set (q := map (fun r => dot r p) rB').
  assert (Hq : length q = snd (shape A))
    by (unfold q; rewrite length_map, HlB'; exact Hsq).
  assert (HAq : map (fun r => dot r q) (rows A) = p)
    by (exact (inverse_roundtrip p HB' Hp)).
  clearbody q. clear Hp. subst p.
  assert (E : map (fun r => dot r (map (fun b => dot b q) (rows A))) rB
              = map (fun r => dot r q) (rows (matmul (mkArray (shape A) rB) A))).
  { apply (matvec_assoc (mkArray (shape A) rB) A q).
    - rewrite Hq. exact HwA.
    - symmetry. exact Hq. }
  rewrite E, HBA. simpl. rewrite Hsq, <- Hq. apply identity_rows_dot.
Qed.

(** The inversion routine returns the inverse, whichever way it is found. *)
Lemma np_linalg_inv_is A B : is_inverse A B -> np_linalg_inv A = Ok B.
Proof.
  intros H.
  destruct (np_linalg_inv_invertible (ex_intro _ B H)) as [B' HB'].
  rewrite HB'. f_equal. apply np_linalg_inv_Ok in HB'.
  exact (inverse_unique HB' H).
Qed.

(* ------------------------------------------------------------ *)
(** ** The design matrix *)
(* ------------------------------------------------------------ *)

Lemma generate_dv_matrix_shape genotypes labels encoding A :
  generate_dv_matrix genotypes labels encoding = Ok A ->
  shape A = (length genotypes, length labels) /\ well_shaped A.
Proof.
  unfold generate_dv_matrix. intros H. inv_bind H. inv_Ok H.
  split; [reflexivity|]. split; simpl.
  - eapply mapM_Ok_length. eassumption.
  - eapply mapM_Ok_Forall; [|eassumption].
    intros g r _. unfold dv_row. destruct (is_binary g); [|discriminate].
    intros E. inv_bind E. inv_Ok E.
    rewrite length_map. eapply mapM_Ok_length. eassumption.
Qed.

(* ------------------------------------------------------------ *)
(** ** Construction *)
(* ------------------------------------------------------------ *)

Lemma init_of_construct c self :
  init_of c self = construct_model (encoding_of c) self.
Proof. destruct c; reflexivity. Qed.

(** The enumeration always contains the intercept. *)
Lemma combinations_0 sites : combinations sites 0 = [[]].
Proof. destruct sites; reflexivity. Qed.

Lemma interaction_labels_nonempty k order ls :
  interaction_labels k order = Ok ls -> (0 < length ls)%nat.
Proof.
  unfold interaction_labels. destruct (Nat.ltb k order); [discriminate|].
  intros H. inv_Ok H. simpl. rewrite combinations_0. simpl. lia.
Qed.

(** What a constructor that returned has established. *)
Lemma construct_model_Ok encoding self m :
  construct_model encoding self = Ok m ->
  base m = self /\ order m = BaseModel.length self /\
  Interactions.values (Interactions m) = None /\
  Interactions.errors (Interactions m) = None /\
  interaction_labels (BaseModel.length self) (BaseModel.length self)
    = Ok (Interactions.labels (Interactions m)) /\
  design_matrix encoding self = Ok (X m) /\
  np_linalg_inv (X m) = Ok (X_inv m).
Proof.
  unfold construct_model, design_matrix. intros H.
  inv_bind H. inv_bind H. inv_bind H. inv_Ok H. simpl.
  rewrite Ha. simpl. rewrite Ha0.
  unfold _construct_interactions in Ha. inv_bind Ha. inv_Ok Ha. simpl.
  repeat split; assumption.
Qed.

(** A constructor returns as soon as the design matrix is invertible. *)
Lemma construct_model_total encoding self A :
  design_matrix encoding self = Ok A -> invertible A ->
  exists m, construct_model encoding self = Ok m /\ X m = A.
Proof.
  unfold construct_model, design_matrix. intros H Hinv.
  inv_bind H. rewrite Ha. simpl. rewrite H. simpl.
  destruct (np_linalg_inv_invertible Hinv) as [B HB]. rewrite HB. simpl.
  eexists; split; reflexivity.
Qed.

(** The shape of the design matrix: genotypes by labels, and at least one
    label. *)
Lemma design_matrix_shape encoding self A :
  design_matrix encoding self = Ok A ->
  well_shaped A /\ fst (shape A) = BaseModel.n self /\ (0 < snd (shape A))%nat.
Proof.
  unfold design_matrix, _construct_interactions. intros H.
  inv_bind H. inv_bind Ha. inv_Ok Ha. simpl in H.
  apply generate_dv_matrix_shape in H. destruct H as [Hs Hw].
  split; [exact Hw|]. rewrite Hs. simpl. split; [reflexivity|].
  eapply interaction_labels_nonempty. eassumption.
Qed.

(** A constructed model is square, of the size of the genotype list, which
    is not empty, and holds the inverse of its design matrix. *)
Lemma constructed_model encoding self m :
  construct_model encoding self = Ok m ->
  is_inverse (X m) (X_inv m) /\
  shape (X m) = (n m, n m) /\ shape (X_inv m) = (n m, n m) /\ (0 < n m)%nat.
Proof.
  intros H. apply construct_model_Ok in H.
  destruct H as (Hb & _ & _ & _ & _ & HX & Hinv).
  apply np_linalg_inv_Ok in Hinv.
  apply design_matrix_shape in HX. destruct HX as (_ & Hn & Hpos).
  assert (Hi := Hinv). destruct Hi as (_ & _ & Hsq & Hsh & _).
  unfold n. rewrite Hb.
  assert (HsX : shape (X m) = (BaseModel.n self, BaseModel.n self)).
  { destruct (shape (X m)) as [a b]. simpl in *. subst. reflexivity. }
  split; [exact Hinv|]. split; [exact HsX|]. split.
  - rewrite Hsh. exact HsX.
  - rewrite <- Hn, Hsq. exact Hpos.
Qed.

(* ------------------------------------------------------------ *)
(** ** Fitting *)
(* ------------------------------------------------------------ *)

Lemma np_dot_Ok A v :
  snd (shape A) = length v ->
  np_dot A v = Ok (map (fun r => dot r v) (rows A)).
Proof.
  intros H. unfold np_dot. rewrite H, Nat.eqb_refl. reflexivity.
Qed.

Lemma py_inv_Ok k : (0 < k)%nat -> py_inv k = Ok (1 / INR k).
Proof.
  intros H. unfold py_inv. destruct (Nat.eqb_spec k 0); [lia | reflexivity].
Qed.

(** The local fit and its round trip, for a model that holds an inverse. *)
Lemma local_fit_round_trip m k :
  is_inverse (X m) (X_inv m) -> shape (X m) = (k, k) ->
  length (Binary.phenotypes (Binary m)) = k ->
  let v := map (fun r => dot r (Binary.phenotypes (Binary m))) (rows (X_inv m)) in
  LocalEpistasisModel.fit m = Ok (set_values m v) /\
  np_dot (X m) v = Ok (Binary.phenotypes (Binary m)).
Proof.
  intros Hinv Hs Hp v.
  assert (Hi := Hinv). destruct Hi as (_ & [HlB _] & _ & HsB & _).
  rewrite Hs in HsB. split.
  - unfold LocalEpistasisModel.fit. rewrite np_dot_Ok.
    + reflexivity.
    + rewrite HsB, Hp. reflexivity.
  - rewrite np_dot_Ok.
    + f_equal. apply inverse_roundtrip; [assumption|]. rewrite Hs, Hp. reflexivity.
    + unfold v. rewrite length_map, Hs, HlB, HsB. reflexivity.
Qed.

(** The global fit scales the coefficients by [1/n], and so the round trip
    returns the phenotypes scaled by [1/n]. *)
Lemma global_fit_round_trip m k :
  is_inverse (X m) (X_inv m) -> shape (X m) = (k, k) ->
  n m = k -> (0 < k)%nat ->
  length (Binary.phenotypes (Binary m)) = k ->
  let v := map (fun r => dot r (Binary.phenotypes (Binary m))) (rows (X_inv m)) in
  GlobalEpistasisModel.fit m = Ok (set_values m (vscale (1 / INR k) v)) /\
  np_dot (X m) (vscale (1 / INR k) v)
    = Ok (vscale (1 / INR k) (Binary.phenotypes (Binary m))).
Proof.
  intros Hinv Hs Hn Hk Hp v.
  assert (Hi := Hinv). destruct Hi as (_ & [HlB _] & _ & HsB & _).
  rewrite Hs in HsB. split.
  - unfold GlobalEpistasisModel.fit. rewrite Hn, py_inv_Ok by assumption.
    simpl. rewrite np_dot_Ok.
    + reflexivity.
    + rewrite HsB, Hp. reflexivity.
  - rewrite np_dot_Ok.
    + f_equal.
      transitivity (vscale (1 / INR k) (map (fun r => dot r v) (rows (X m)))).
      * unfold vscale at 2. rewrite map_map. apply map_ext.
        intros r. apply dot_vscale_r.
      * f_equal. apply inverse_roundtrip; [assumption|].
        rewrite Hs, Hp. reflexivity.
    + unfold v. rewrite length_vscale, length_map, Hs, HlB, HsB. reflexivity.
Qed.

(** Fitting a constructed model of either class. *)
Lemma fit_constructed c self m :
  init_of c self = Ok m ->
  length (Binary.phenotypes (BaseModel.Binary self)) = BaseModel.n self ->
  let p := Binary.phenotypes (BaseModel.Binary self) in
  let v := map (fun r => dot r p) (rows (X_inv m)) in
  let k := 1 / INR (BaseModel.n self) in
  match c with
  | Local => call c Fit m = Ok (set_values m v) /\ np_dot (X m) v = Ok p
  | Global =>
      call c Fit m = Ok (set_values m (vscale k v)) /\
      np_dot (X m) (vscale k v) = Ok (vscale k p)
  end.
Proof.
  intros Hinit Hp. rewrite init_of_construct in Hinit.
  destruct (constructed_model _ _ Hinit) as (Hinv & HsX & _ & Hpos).
  apply construct_model_Ok in Hinit. destruct Hinit as (Hb & _).
  assert (Hn : n m = BaseModel.n self) by (unfold n; rewrite Hb; reflexivity).
  assert (HB : Binary m = BaseModel.Binary self)
    by (unfold Binary; rewrite Hb; reflexivity).
  rewrite Hn in HsX, Hpos. rewrite <- HB in Hp |- *.
  destruct c; simpl.
  - apply (local_fit_round_trip m Hinv HsX Hp).
  - apply (global_fit_round_trip m Hinv HsX Hn Hpos Hp).
Qed.

(** Solves an equation between two vectors written out in full. *)
Ltac vec_eq := repeat (apply (f_equal2 cons); [lra|]); reflexivity.

(** Solves [is_inverse A B] for matrices written out in full. *)
Ltac solve_is_inverse :=
  unfold is_inverse, well_shaped, matmul, np_identity; simpl;
  unfold vadd, vscale; simpl;
  repeat split; repeat constructor; repeat f_equal; try field.

Lemma one_site_local_inverse : is_inverse one_site_local_X one_site_local_X_inv.
Proof. solve_is_inverse. Qed.

Lemma one_site_global_inverse : is_inverse one_site_global_X one_site_global_X_inv.
Proof. solve_is_inverse. Qed.

Lemma one_site_design c p e :
  design_matrix (encoding_of c) (one_site p e)
  = Ok (match c with Local => one_site_local_X | Global => one_site_global_X end).
Proof. destruct c; reflexivity. Qed.

Lemma one_site_invertible c :
  invertible (match c with Local => one_site_local_X | Global => one_site_global_X end).
Proof.
  destruct c.
  - exists one_site_local_X_inv. apply one_site_local_inverse.
  - exists one_site_global_X_inv. apply one_site_global_inverse.
Qed.

(** Both classes construct a model of the one-site map. *)
Lemma one_site_init c p e :
  init_of c (one_site p e) = Ok (one_site_model c p e).
Proof.
  rewrite init_of_construct. unfold construct_model, _construct_interactions.
  destruct c; cbn -[np_linalg_inv].
  - change (mkArray (2, 2)%nat [[1; 0]; [1; 1]]) with one_site_local_X.
    rewrite (np_linalg_inv_is one_site_local_inverse). reflexivity.
  - change (mkArray (2, 2)%nat [[1; -1]; [1; 1]]) with one_site_global_X.
    rewrite (np_linalg_inv_is one_site_global_inverse). reflexivity.
Qed.

(** The global fit of the one-site map with the phenotypes 1 and 3: the
    coefficients are 1 and 1/2, and [X] maps them to 1/2 and 3/2. *)
Lemma one_site_global_fit :
  let m := one_site_model Global [1; 3] None in
  GlobalEpistasisModel.fit m = Ok (set_values m [1; 1 / 2]) /\
  np_dot (X m) [1; 1 / 2] = Ok [1 / 2; 3 / 2].
Proof.
  split.
  - unfold GlobalEpistasisModel.fit, set_values, np_dot, py_inv, vscale; simpl.
    do 4 f_equal. vec_eq.
  - unfold np_dot; simpl. f_equal. vec_eq.
Qed.

(** The local model of the fixture of the test suite: the enumeration gives
    the eight labels, the design is complete and the constructor returns. *)
Lemma fixture_local_inverse : is_inverse fixture_local_X fixture_local_X_inv.
Proof. solve_is_inverse. Qed.

Lemma fixture_local_init :
  LocalEpistasisModel.__init__ fixture = Ok fixture_local_model.
Proof.
  unfold LocalEpistasisModel.__init__, _construct_interactions.
  cbn -[np_linalg_inv].
  change (mkArray (8, 8)%nat _) with fixture_local_X.
  rewrite (np_linalg_inv_is fixture_local_inverse). reflexivity.
Qed.

(** Its fit: the intercept is the phenotype of the wildtype, a first-order
    coefficient is the phenotype of the single mutant minus that of the
    wildtype, and [X] maps the coefficients back to the phenotypes. *)
Lemma fixture_local_fit :
  let v := [1 / 10; 3 / 10; 2 / 5; 0; - (3 / 10); 2 / 5; - (3 / 10); 2 / 5] in
  LocalEpistasisModel.fit fixture_local_model
    = Ok (set_values fixture_local_model v) /\
  np_dot fixture_local_X v = Ok fixture_phenotypes.
Proof.
  split.
  - unfold LocalEpistasisModel.fit, set_values, np_dot; simpl.
    do 4 f_equal. vec_eq.
  - unfold np_dot; simpl. f_equal. unfold fixture_phenotypes. vec_eq.
Qed.

(* ------------------------------------------------------------ *)
(** ** The round trip through the basis *)
(* ------------------------------------------------------------ *)

(** C1 (amended): for every complete design, that is whenever the design
    matrix [X] of the map is invertible (hence square: as many genotypes as
    labels) and there is one phenotype per genotype, the constructor returns
    a model, [fit()] returns, and the product of [X] with the fitted
    coefficient vector is the phenotype vector for the local model, and the
    phenotype vector scaled by [1/N] for the global model, [N] being the
    number of genotypes. *)
Theorem fit_round_trip (c : variant) (self : BaseModel.t) (A : ndarray) :
  design_matrix (encoding_of c) self = Ok A ->
  invertible A ->
  length (Binary.phenotypes (BaseModel.Binary self)) = BaseModel.n self ->
  exists m v,
    init_of c self = Ok m /\ X m = A /\
    call c Fit m = Ok (set_values m v) /\
    np_dot (X m) v =
      Ok (match c with
          | Local => Binary.phenotypes (BaseModel.Binary self)
          | Global => vscale (1 / INR (BaseModel.n self))
                        (Binary.phenotypes (BaseModel.Binary self))
          end).
Proof.
  intros HA Hinv Hp.
  destruct (construct_model_total _ _ HA Hinv) as (m & Hm & HX).
  rewrite <- init_of_construct in Hm.
  assert (Hfit := fit_constructed c self Hm Hp). simpl in Hfit.
  exists m. destruct c; destruct Hfit as [Hfit Hdot];
    eexists; (split; [exact Hm|]); (split; [exact HX|]);
    (split; [exact Hfit | exact Hdot]).
Qed.

Lemma fit_round_trip_witness :
  exists m v,
    init_of Local (one_site [1; 3] None) = Ok m /\ X m = one_site_local_X /\
    call Local Fit m = Ok (set_values m v) /\
    np_dot (X m) v = Ok [1; 3].
Proof.
  exact (fit_round_trip Local (one_site [1; 3] None)
           (one_site_design Local [1; 3] None) (one_site_invertible Local)
           eq_refl).
Defined.

(** C1, as stated, fails for the global model: on the one-site map with the
    phenotypes 1 and 3 the design matrix [[1, -1], [1, 1]] is invertible,
    the fitted coefficients are [1, 1/2], and [X . coefficients] is
    [1/2, 3/2], not [1, 3]. *)
Lemma round_trip_global_fails : ~ round_trip Global (one_site [1; 3] None).
Proof.
  intros Hrt. destruct one_site_global_fit as [Hfit Hdot].
  specialize (Hrt _ _ _ (one_site_init Global [1; 3] None) Hfit eq_refl).
  simpl in Hrt, Hdot. rewrite Hdot in Hrt. injection Hrt as H1 _. lra.
Qed.



(* ------------------------------------------------------------ *)
(** ** The two variants *)
(* ------------------------------------------------------------ *)

(** C5: both constructors are the one construction protocol, run with the
    encoding of their variant; both encodings send the character 1 to 1, the
    local one sends 0 to 0 and the global one sends 0 to -1; and when both
    constructors return on the same map, the two models have the same base
    object, order and interaction labels. *)
Theorem variants_differ_in_encoding :
  (forall self,
     LocalEpistasisModel.__init__ self
     = construct_model LocalEpistasisModel.encoding self) /\
  (forall self,
     GlobalEpistasisModel.__init__ self
     = construct_model GlobalEpistasisModel.encoding self) /\
  dict_get LocalEpistasisModel.encoding "1" = Ok 1%Z /\
  dict_get LocalEpistasisModel.encoding "0" = Ok 0%Z /\
  dict_get GlobalEpistasisModel.encoding "1" = Ok 1%Z /\
  dict_get GlobalEpistasisModel.encoding "0" = Ok (-1)%Z /\
  (forall self ml mg,
     LocalEpistasisModel.__init__ self = Ok ml ->
     GlobalEpistasisModel.__init__ self = Ok mg ->
     base ml = base mg /\ order ml = order mg /\
     Interactions ml = Interactions mg).
Proof.
  repeat (split; [reflexivity|]).
  intros self ml mg Hl Hg.
  unfold LocalEpistasisModel.__init__ in Hl.
  unfold GlobalEpistasisModel.__init__ in Hg.
  inv_bind Hl. inv_bind Hl. inv_bind Hl. inv_Ok Hl.
  inv_bind Hg. inv_bind Hg. inv_bind Hg. inv_Ok Hg.
  simpl. rewrite Ha in Ha2. inv_Ok Ha2. repeat split; reflexivity.
Qed.

Lemma variants_differ_in_encoding_witness :
  exists ml mg,
    LocalEpistasisModel.__init__ (one_site [1; 3] None) = Ok ml /\
    GlobalEpistasisModel.__init__ (one_site [1; 3] None) = Ok mg /\
    Interactions ml = Interactions mg.
Proof.
  assert (Hl := one_site_init Local [1; 3] None).
  assert (Hg := one_site_init Global [1; 3] None).
  eexists. eexists. split; [exact Hl|]. split; [exact Hg|].
  destruct variants_differ_in_encoding as (_ & _ & _ & _ & _ & _ & H).
  exact (proj2 (proj2 (H _ _ _ Hl Hg))).
Defined.

(* ------------------------------------------------------------ *)
(** ** Frame properties of the methods *)
(* ------------------------------------------------------------ *)

(** A call that returns assigns the values (a fit) or the errors (an error
    fit) and nothing else. *)
Lemma call_Ok c mth m m' :
  call c mth m = Ok m' ->
  exists v, m' = match mth with
                 | Fit => set_values m v
                 | FitError => set_errors m v
                 end.
Proof.
  destruct c, mth; simpl;
    [unfold LocalEpistasisModel.fit | unfold LocalEpistasisModel.fit_error
    |unfold GlobalEpistasisModel.fit | unfold GlobalEpistasisModel.fit_error];
    intros H; repeat inv_bind H; inv_Ok H; eexists; reflexivity.
Qed.

Lemma call_frame c mth m m' :
  call c mth m = Ok m' ->
  base m' = base m /\ order m' = order m /\
  Interactions.labels (Interactions m') = Interactions.labels (Interactions m) /\
  X m' = X m /\ X_inv m' = X_inv m.
Proof.
  intros H. apply call_Ok in H. destruct H as [v ->].
  destruct mth; repeat split; reflexivity.
Qed.

Lemma run_frame c calls m :
  base (run c calls m) = base m /\ order (run c calls m) = order m /\
  Interactions.labels (Interactions (run c calls m))
    = Interactions.labels (Interactions m) /\
  X (run c calls m) = X m /\ X_inv (run c calls m) = X_inv m.
Proof.
  revert m; induction calls as [|mth calls IH]; intros m; simpl.
  - repeat split; reflexivity.
  - destruct (call c mth m) as [m'|e] eqn:E; [|apply IH].
    apply call_frame in E. destruct E as (E1 & E2 & E3 & E4 & E5).
    destruct (IH m') as (I1 & I2 & I3 & I4 & I5).
    rewrite I1, I2, I3, I4, I5. repeat split; assumption.
Qed.

(** A fit reads the cached [X_inv], the phenotypes and [n], and nothing
    else: two objects that agree on them are fitted to the same values. *)
Lemma fit_reads_cache c m1 m2 m1' :
  X_inv m1 = X_inv m2 -> base m1 = base m2 ->
  call c Fit m1 = Ok m1' ->
  exists m2', call c Fit m2 = Ok m2' /\
              Interactions.values (Interactions m2')
              = Interactions.values (Interactions m1').
Proof.
  intros HX Hb. destruct c; simpl;
    [unfold LocalEpistasisModel.fit | unfold GlobalEpistasisModel.fit];
    unfold n, Binary; rewrite HX, Hb; intros H; repeat inv_bind H; inv_Ok H.
  - rewrite Ha. simpl. eexists; split; reflexivity.
  - rewrite Ha. simpl. rewrite Ha0. simpl. eexists; split; reflexivity.
Qed.

(** C6: once a constructor has returned, whatever calls of [fit()] and
    [fit_error()] follow, the object still holds the [X] and the [X_inv]
    computed at construction, [X_inv] being the result of the one inversion
    of [X]; on that object a [fit()] that returns has only assigned the
    coefficient vector, computed from the cached [X_inv] (an object with
    the same [X_inv] and the same data is fitted to the same values,
    whatever its [X]), and a [fit_error()] that returns has only assigned
    the error vector. *)
Theorem fit_frame (c : variant) (self : BaseModel.t) (m : Model)
    (calls : list method) :
  init_of c self = Ok m ->
  let m' := run c calls m in
  X m' = X m /\ X_inv m' = X_inv m /\
  design_matrix (encoding_of c) self = Ok (X m') /\
  np_linalg_inv (X m') = Ok (X_inv m') /\
  (forall m'', call c Fit m' = Ok m'' -> exists v, m'' = set_values m' v) /\
  (forall m2 m'',
     X_inv m2 = X_inv m' -> base m2 = base m' -> call c Fit m' = Ok m'' ->
     exists m2', call c Fit m2 = Ok m2' /\
                 Interactions.values (Interactions m2')
                 = Interactions.values (Interactions m'')) /\
  (forall m'', call c FitError m' = Ok m'' -> exists v, m'' = set_errors m' v).
Proof.
  intros Hm m'. rewrite init_of_construct in Hm.
  apply construct_model_Ok in Hm. destruct Hm as (_ & _ & _ & _ & _ & HX & Hinv).
  destruct (run_frame c calls m) as (_ & _ & _ & E4 & E5).
  unfold m'. rewrite E4, E5.
  repeat split; try assumption.
  - intros m'' H. apply call_Ok in H. exact H.
  - intros m2 m'' H1 H2 H.
    eapply fit_reads_cache; [| | exact H].
    + rewrite E5. symmetry. exact H1.
    + symmetry. exact H2.
  - intros m'' H. apply call_Ok in H. exact H.
Qed.

Lemma fit_frame_witness :
  exists m,
    init_of Local (one_site [1; 3] (Some [3; 4])) = Ok m /\
    let m' := run Local [Fit; FitError; Fit] m in
    X m' = X m /\ X_inv m' = X_inv m.
Proof.
  pose (m := one_site_model Local [1; 3] (Some [3; 4])).
  assert (Hm := one_site_init Local [1; 3] (Some [3; 4])). fold m in Hm.
  exists m. split; [exact Hm|].
  destruct (fit_frame Local (one_site [1; 3] (Some [3; 4])) [Fit; FitError; Fit] Hm)
    as (H1 & H2 & _).
  split; [exact H1 | exact H2].
Defined.

(* ------------------------------------------------------------ *)
(** ** Error fits without phenotype errors *)
(* ------------------------------------------------------------ *)

Lemma fit_error_unset_raises c m :
  Binary.errors (Binary m) = None ->
  exists e, call c FitError m = Raise e.
Proof.
  intros He. destruct c; simpl.
  - unfold LocalEpistasisModel.fit_error. rewrite He. simpl.
    eexists; reflexivity.
  - unfold GlobalEpistasisModel.fit_error.
    destruct (py_inv (n m)) as [k|e]; simpl.
    + rewrite He. simpl. eexists; reflexivity.
    + eexists; reflexivity.
Qed.

Lemma run_errors_unset c calls m :
  Binary.errors (Binary m) = None ->
  Interactions.errors (Interactions m) = None ->
  Interactions.errors (Interactions (run c calls m)) = None.
Proof.
  revert m; induction calls as [|mth calls IH]; intros m Hb Hi; simpl.
  - exact Hi.
  - destruct (call c mth m) as [m'|e] eqn:E; [|apply IH; assumption].
    destruct mth.
    + apply call_Ok in E. destruct E as [v ->]. apply IH; assumption.
    + destruct (fit_error_unset_raises c m Hb) as [e He].
      rewrite He in E. discriminate E.
Qed.

(** C8: on a model constructed without a phenotype error vector, at any
    point of its life, [fit_error()] raises ([TypeError], from squaring the
    absent errors) and assigns nothing: the error vector of the interactions
    stays unset. *)
Theorem fit_error_requires_errors (c : variant) (self : BaseModel.t)
    (m : Model) (calls : list method) :
  init_of c self = Ok m ->
  Binary.errors (BaseModel.Binary self) = None ->
  call c FitError (run c calls m) = Raise TypeError /\
  Interactions.errors (Interactions (run c calls m)) = None.
Proof.
  intros Hm He. rewrite init_of_construct in Hm.
  destruct (constructed_model _ _ Hm) as (_ & _ & _ & Hpos).
  apply construct_model_Ok in Hm. destruct Hm as (Hb & _ & _ & Hie & _).
  destruct (run_frame c calls m) as (Eb & _).
  assert (HB : Binary.errors (Binary m) = None)
    by (unfold Binary; rewrite Hb; exact He).
  split; [|apply run_errors_unset; assumption].
  assert (HB' : Binary.errors (Binary (run c calls m)) = None)
    by (unfold Binary; rewrite Eb, Hb; exact He).
  destruct c; simpl.
  - unfold LocalEpistasisModel.fit_error. rewrite HB'. reflexivity.
  - unfold GlobalEpistasisModel.fit_error.
    replace (n (run Global calls m)) with (n m) by (unfold n; rewrite Eb; reflexivity).
    rewrite py_inv_Ok by exact Hpos. simpl. rewrite HB'. reflexivity.
Qed.

Lemma fit_error_requires_errors_witness :
  exists m,
    init_of Global (one_site [1; 3] None) = Ok m /\
    call Global FitError (run Global [Fit] m) = Raise TypeError.
Proof.
  pose (m := one_site_model Global [1; 3] None).
  assert (Hm := one_site_init Global [1; 3] None). fold m in Hm.
  exists m. split; [exact Hm|].
  exact (proj1 (fit_error_requires_errors Global (one_site [1; 3] None) [Fit] Hm eq_refl)).
Defined.

(* ------------------------------------------------------------ *)
(** ** Singular designs *)
(* ------------------------------------------------------------ *)





(* ------------------------------------------------------------ *)
(** ** Entries of the design matrix *)
(* ------------------------------------------------------------ *)


Section Entries.
Variable P : Z -> Prop.
Hypothesis P_one : P 1%Z.
Hypothesis P_mul : forall a b, P a -> P b -> P (a * b)%Z.
Variable encoding : dict.
Hypothesis P_encoding : Forall P (map snd encoding).



End Entries.







Lemma nth_matvec i (rs : list vector) w :
  nth i (map (fun r => dot r w) rs) 0 = dot (nth i rs []) w.
Proof.
  change 0 with (dot [] w) at 1. apply (map_nth (fun r => dot r w)).
Qed.


(* ------------------------------------------------------------ *)
(** ** Propagation of the phenotype errors *)
(* ------------------------------------------------------------ *)





(* ------------------------------------------------------------ *)
(** ** Truncation of the labels *)
(* ------------------------------------------------------------ *)

Lemma cut_fold (order : Z) (labels acc : list label) :
  fold_left
    (fun acc l => if (Z.of_nat (length l) <=? order)%Z then acc ++ [l] else acc)
    labels acc
  = acc ++ filter (fun l => (Z.of_nat (length l) <=? order)%Z) labels.
Proof.
  revert acc; induction labels as [|l labels IH]; intros acc; simpl.
  - symmetry. apply app_nil_r.
  - rewrite IH. destruct (Z.of_nat (length l) <=? order)%Z; [|reflexivity].
    rewrite <- app_assoc. reflexivity.
Qed.

(** C9: for every label list and every order [k], the truncation is the
    input list filtered by "size at most [k]": it holds exactly the labels
    of the input whose size is at most [k], in their relative order; and
    when every label has size at most [k] it is the input list. *)
Theorem cut_interaction_labels_spec (labels : list label) (k : Z) :
  cut_interaction_labels labels k
    = filter (fun l => (Z.of_nat (length l) <=? k)%Z) labels /\
  (forall l, In l (cut_interaction_labels labels k) <->
             In l labels /\ (Z.of_nat (length l) <= k)%Z) /\
  (Forall (fun l => (Z.of_nat (length l) <= k)%Z) labels ->
   cut_interaction_labels labels k = labels).
Proof.
  assert (E : cut_interaction_labels labels k
              = filter (fun l => (Z.of_nat (length l) <=? k)%Z) labels)
    by (unfold cut_interaction_labels; rewrite cut_fold; reflexivity).
  split; [exact E|]. rewrite E. split.
  - intros l. rewrite filter_In, Z.leb_le. reflexivity.
  - intros Hall. induction Hall as [|l ls Hl _ IH]; simpl; [reflexivity|].
    apply Z.leb_le in Hl. rewrite Hl. f_equal. apply IH.
    unfold cut_interaction_labels. rewrite cut_fold. reflexivity.
Qed.

Lemma cut_interaction_labels_spec_witness :
  cut_interaction_labels [[]; [1%nat]; [1%nat; 2%nat]] 2
  = [[]; [1%nat]; [1%nat; 2%nat]].
Proof.
  apply (cut_interaction_labels_spec [[]; [1%nat]; [1%nat; 2%nat]] 2).
  repeat constructor; simpl; lia.
Defined.

(* ------------------------------------------------------------ *)
(** ** The Hadamard weights *)
(* ------------------------------------------------------------ *)









(* ------------------------------------------------------------ *)
(** ** Further properties of the truncation *)
(* ------------------------------------------------------------ *)

Lemma cut_filter labels k :
  cut_interaction_labels labels k
  = filter (fun l => (Z.of_nat (length l) <=? k)%Z) labels.
Proof. unfold cut_interaction_labels. rewrite cut_fold. reflexivity. Qed.

Lemma filter_twice {A : Type} (f g : A -> bool) xs :
  filter g (filter f xs) = filter (fun x => f x && g x) xs.
Proof.
  induction xs as [|x xs IH]; simpl; [reflexivity|].
  destruct (f x); simpl; [|exact IH].
  destruct (g x); rewrite IH; reflexivity.
Qed.

(** X1: truncating at [k1] and then at [k2] is truncating once at the
    smaller of the two orders; in particular truncating twice at the same
    order changes nothing more. *)
Theorem cut_interaction_labels_twice (labels : list label) (k1 k2 : Z) :
  cut_interaction_labels (cut_interaction_labels labels k1) k2
  = cut_interaction_labels labels (Z.min k1 k2).
Proof.
  rewrite !cut_filter, filter_twice. apply filter_ext. intros l.
  destruct (Z.leb_spec (Z.of_nat (length l)) k1);
    destruct (Z.leb_spec (Z.of_nat (length l)) k2);
    destruct (Z.leb_spec (Z.of_nat (length l)) (Z.min k1 k2));
    simpl; try reflexivity; lia.
Qed.

(** X2: a negative order keeps no label, not even the intercept, and no
    truncation is longer than its input. *)
Theorem cut_interaction_labels_negative (labels : list label) (k : Z) :
  (length (cut_interaction_labels labels k) <= length labels)%nat /\
  ((k < 0)%Z -> cut_interaction_labels labels k = []).
Proof.
  rewrite cut_filter. split; [apply filter_length_le|].
  intros Hk. induction labels as [|l ls IH]; simpl; [reflexivity|].
  destruct (Z.leb_spec (Z.of_nat (length l)) k); [lia | exact IH].
Qed.

Lemma cut_interaction_labels_negative_witness :
  cut_interaction_labels [[]; [1%nat]; [1%nat; 2%nat]] (-1) = [].
Proof.
  apply (cut_interaction_labels_negative [[]; [1%nat]; [1%nat; 2%nat]] (-1)).
  lia.
Defined.

(* ------------------------------------------------------------ *)
(** ** The enumerated labels *)
(* ------------------------------------------------------------ *)

Lemma combinations_length sites : forall k l,
  In l (combinations sites k) -> length l = k.
Proof.
  induction sites as [|s rest IH]; intros [|k] l; simpl.
  - intros [<- | []]. reflexivity.
  - intros [].
  - intros [<- | []]. reflexivity.
  - rewrite in_app_iff, in_map_iff. intros [(l' & <- & Hl') | Hl].
    + simpl. f_equal. apply IH. exact Hl'.
    + apply IH. exact Hl.
Qed.


Lemma filter_all {A : Type} (f : A -> bool) xs :
  (forall x, In x xs -> f x = true) -> filter f xs = xs.
Proof.
  induction xs as [|x xs IH]; simpl; intros H; [reflexivity|].
  rewrite (H x (or_introl eq_refl)). f_equal. apply IH.
  intros y Hy. apply H. right. exact Hy.
Qed.

Lemma filter_none {A : Type} (f : A -> bool) xs :
  (forall x, In x xs -> f x = false) -> filter f xs = [].
Proof.
  induction xs as [|x xs IH]; simpl; intros H; [reflexivity|].
  rewrite (H x (or_introl eq_refl)). apply IH.
  intros y Hy. apply H. right. exact Hy.
Qed.

(** X3: truncating the labels enumerated at the full order [n] to an order
    [k <= n] gives the labels the enumerator lists at the order [k], in the
    same order. *)
Theorem cut_enumerated_labels (n k : nat) (ls : list label) :
  interaction_labels n n = Ok ls -> (k <= n)%nat ->
  interaction_labels n k = Ok (cut_interaction_labels ls (Z.of_nat k)).
Proof.
  unfold interaction_labels. rewrite Nat.ltb_irrefl. intros H Hk.
  assert (E : ls = flat_map (combinations (seq 1 n)) (seq 0 (S n)))
    by (injection H as H; symmetry; exact H).
  clear H. subst ls.
  destruct (Nat.ltb_spec n k); [lia|]. f_equal.
  rewrite cut_filter.
  replace (S n) with (S k + (n - k))%nat by lia.
  rewrite seq_app, flat_map_app, filter_app.
  rewrite filter_all, filter_none.
  - symmetry. apply app_nil_r.
  - intros l Hl. apply in_flat_map in Hl. destruct Hl as (j & Hj & Hl).
    apply in_seq in Hj. apply combinations_length in Hl.
    apply Z.leb_gt. lia.
  - intros l Hl. apply in_flat_map in Hl. destruct Hl as (j & Hj & Hl).
    apply in_seq in Hj. apply combinations_length in Hl.
    apply Z.leb_le. lia.
Qed.

Lemma cut_enumerated_labels_witness :
  interaction_labels 3 1
  = Ok (cut_interaction_labels
          [[]; [1]; [2]; [3]; [1; 2]; [1; 3]; [2; 3]; [1; 2; 3]]%nat 1).
Proof.
  apply (cut_enumerated_labels (n := 3) (k := 1)); [reflexivity | lia].
Defined.




(* ------------------------------------------------------------ *)
(** ** Further properties of the Hadamard weights *)
(* ------------------------------------------------------------ *)






(* ------------------------------------------------------------ *)
(** ** Sequences of calls *)
(* ------------------------------------------------------------ *)

(** A method reads the base object, [X] and [X_inv] only: on another object
    with the same three it stores the same vector. *)
Lemma call_same_data c mth m m2 v :
  base m2 = base m -> X m2 = X m -> X_inv m2 = X_inv m ->
  call c mth m = Ok (match mth with
                     | Fit => set_values m v
                     | FitError => set_errors m v
                     end) ->
  call c mth m2 = Ok (match mth with
                      | Fit => set_values m2 v
                      | FitError => set_errors m2 v
                      end).
Proof.
  intros Hb HX HXi.
  destruct c, mth; cbn [call];
    [unfold LocalEpistasisModel.fit | unfold LocalEpistasisModel.fit_error
    |unfold GlobalEpistasisModel.fit | unfold GlobalEpistasisModel.fit_error];
    unfold n, Binary; rewrite Hb, ?HX, ?HXi; intros H;
    repeat inv_bind H; injection H as H;
    repeat match goal with E : _ = Ok _ |- _ => rewrite E; clear E; cbn [bind] end;
    subst v; reflexivity.
Qed.

(** X6: when a [fit()] and a [fit_error()] both return on an object, then
    after any sequence of such calls the object holds the coefficient vector
    of that one [fit()] if [fit()] was called at all, the error vector of
    that one [fit_error()] if [fit_error()] was called at all, and is
    otherwise as it was: repeating the calls or changing their order changes
    nothing. *)
Theorem calls_normal_form (c : variant) (m : Model) (V E : vector)
    (calls : list method) :
  call c Fit m = Ok (set_values m V) ->
  call c FitError m = Ok (set_errors m E) ->
  run c calls m
  = mkModel (base m) (order m)
      (Interactions.mk (Interactions.labels (Interactions m))
         (if called Fit calls then Some V
          else Interactions.values (Interactions m))
         (if called FitError calls then Some E
          else Interactions.errors (Interactions m)))
      (X m) (X_inv m).
Proof.
  intros HV HE.
  assert (G : forall m2,
             base m2 = base m -> X m2 = X m -> X_inv m2 = X_inv m ->
             run c calls m2
             = mkModel (base m2) (order m2)
                 (Interactions.mk (Interactions.labels (Interactions m2))
                    (if called Fit calls then Some V
                     else Interactions.values (Interactions m2))
                    (if called FitError calls then Some E
                     else Interactions.errors (Interactions m2)))
                 (X m2) (X_inv m2)).
  { induction calls as [|mth calls IH]; intros m2 Hb HX HXi.
    - simpl. destruct m2 as [b o [l v e] x xi]. reflexivity.
    - simpl run. destruct mth.
      + rewrite (call_same_data c Fit m m2 V Hb HX HXi HV).
        rewrite IH by assumption. unfold called. simpl.
        destruct (existsb (method_eqb Fit) calls),
                 (existsb (method_eqb FitError) calls); reflexivity.
      + rewrite (call_same_data c FitError m m2 E Hb HX HXi HE).
        rewrite IH by assumption. unfold called. simpl.
        destruct (existsb (method_eqb Fit) calls),
                 (existsb (method_eqb FitError) calls); reflexivity. }
  apply G; reflexivity.
Qed.

Lemma calls_normal_form_witness :
  let m := one_site_model Local [1; 3] (Some [3; 4]) in
  run Local [Fit; FitError; Fit; Fit] m = run Local [FitError; Fit] m.
Proof.
  intros m.
  assert (HV : call Local Fit m
               = Ok (set_values m (map (fun r => dot r [1; 3]) (rows (X_inv m)))))
    by reflexivity.
  assert (HE : call Local FitError m
               = Ok (set_errors m
                       (np_sqrt (map (fun r => dot r (vsquare [3; 4])) (rows (X m))))))
    by reflexivity.
  rewrite (@calls_normal_form Local m _ _ [Fit; FitError; Fit; Fit] HV HE).
  rewrite (@calls_normal_form Local m _ _ [FitError; Fit] HV HE).
  reflexivity.
Defined.

(* ------------------------------------------------------------ *)
(** ** Data of the wrong length *)
(* ------------------------------------------------------------ *)

Lemma np_dot_mismatch A v :
  snd (shape A) <> length v -> np_dot A v = Raise ValueError.
Proof.
  intros H. unfold np_dot. destruct (Nat.eqb_spec (snd (shape A)) (length v));
    [contradiction | reflexivity].
Qed.

(** X7: on a constructed model of either class, [fit()] raises [ValueError]
    when the phenotype vector does not have one entry per genotype, and the
    coefficient vector stays unset. *)
Theorem fit_wrong_length (c : variant) (self : BaseModel.t) (m : Model) :
  init_of c self = Ok m ->
  length (Binary.phenotypes (BaseModel.Binary self)) <> BaseModel.n self ->
  call c Fit m = Raise ValueError /\
  Interactions.values (Interactions (run c [Fit] m)) = None.
Proof.
  intros Hm Hp. rewrite init_of_construct in Hm.
  destruct (constructed_model _ _ Hm) as (_ & _ & HsB & Hpos).
  apply construct_model_Ok in Hm. destruct Hm as (Hb & _ & Hv & _).
  assert (Hn : n m = BaseModel.n self) by (unfold n; rewrite Hb; reflexivity).
  assert (E : call c Fit m = Raise ValueError).
  { destruct c; simpl;
      [unfold LocalEpistasisModel.fit | unfold GlobalEpistasisModel.fit];
      rewrite ?py_inv_Ok by exact Hpos; simpl;
      rewrite np_dot_mismatch; try reflexivity;
      rewrite HsB, Hn; unfold Binary; rewrite Hb; simpl; congruence. }
  split; [exact E|]. simpl. rewrite E. exact Hv.
Qed.

Lemma fit_wrong_length_witness :
  call Global Fit (one_site_model Global [1; 3; 5] None) = Raise ValueError.
Proof.
  apply (fit_wrong_length Global (one_site [1; 3; 5] None)
           (one_site_init Global [1; 3; 5] None)).
  simpl. discriminate.
Defined.

(** X8: on a constructed model of either class, [fit_error()] raises
    [ValueError] when phenotype errors were supplied but not one per
    genotype, and the error vector stays unset. *)
Theorem fit_error_wrong_length (c : variant) (self : BaseModel.t) (m : Model)
    (e : vector) :
  init_of c self = Ok m ->
  Binary.errors (BaseModel.Binary self) = Some e ->
  length e <> BaseModel.n self ->
  call c FitError m = Raise ValueError /\
  Interactions.errors (Interactions (run c [FitError] m)) = None.
Proof.
  intros Hm He Hl. rewrite init_of_construct in Hm.
  destruct (constructed_model _ _ Hm) as (_ & HsX & _ & Hpos).
  apply construct_model_Ok in Hm. destruct Hm as (Hb & _ & _ & Hie & _).
  assert (Hn : n m = BaseModel.n self) by (unfold n; rewrite Hb; reflexivity).
  assert (E : call c FitError m = Raise ValueError).
  { destruct c; simpl;
      [unfold LocalEpistasisModel.fit_error
      |unfold GlobalEpistasisModel.fit_error];
      rewrite ?py_inv_Ok by exact Hpos; simpl;
      unfold Binary; rewrite Hb, He; simpl;
      rewrite np_dot_mismatch; try reflexivity;
      simpl; rewrite HsX, Hn; simpl; unfold vsquare; rewrite length_map;
      congruence. }
  split; [exact E|]. simpl. rewrite E. exact Hie.
Qed.

Lemma fit_error_wrong_length_witness :
  call Local FitError (one_site_model Local [1; 3] (Some [3])) = Raise ValueError.
Proof.
  apply (fit_error_wrong_length Local (one_site [1; 3] (Some [3]))
           (one_site_init Local [1; 3] (Some [3])) eq_refl).
  simpl. discriminate.
Defined.

(* ------------------------------------------------------------ *)
(** ** The link function of the test module *)
(* ------------------------------------------------------------ *)

(** X13: for a slope [A] different from zero, [reverse] undoes [function]
    and [function] undoes [reverse], for the same [A] and [B]. *)
Theorem reverse_function_round_trip (x y A B : R) :
  A <> 0 ->
  test_nonlinear.reverse (test_nonlinear.function x A B) A B = Ok x /\
  exists x',
    test_nonlinear.reverse y A B = Ok x' /\
    test_nonlinear.function x' A B = y.
Proof.
  intros HA. unfold test_nonlinear.reverse, test_nonlinear.function.
  destruct (Req_dec_T A 0) as [E|_]; [contradiction|]. split.
  - f_equal. field. exact HA.
  - eexists. split; [reflexivity|]. field. exact HA.
Qed.

Lemma reverse_function_round_trip_witness :
  test_nonlinear.reverse (test_nonlinear.function 5 1 0) 1 0 = Ok 5.
Proof.
  apply (reverse_function_round_trip 5 0 (A := 1) 0). lra.
Defined.

(* ------------------------------------------------------------ *)
(** ** What the constructor accepts *)
(* ------------------------------------------------------------ *)




(* ------------------------------------------------------------ *)
(** ** The radicand of the error fit *)
(* ------------------------------------------------------------ *)






(* ------------------------------------------------------------ *)
(** ** The intercept of the local model *)
(* ------------------------------------------------------------ *)

Lemma interaction_labels_intercept k order ls :
  interaction_labels k order = Ok ls ->
  exists rest, ls = [] :: rest /\ Forall (fun l => l <> []) rest.
Proof.
  unfold interaction_labels. destruct (Nat.ltb k order); [discriminate|].
  intros H.
  assert (E : ls = [[]] ++ flat_map (combinations (seq 1 k)) (seq 1 order)).
  { injection H as H. rewrite <- H. simpl. rewrite combinations_0. reflexivity. }
  exists (flat_map (combinations (seq 1 k)) (seq 1 order)).
  split; [exact E|]. apply Forall_forall. intros l Hl.
  apply in_flat_map in Hl. destruct Hl as (j & Hj & Hl).
  apply in_seq in Hj. apply combinations_length in Hl.
  intros ->. simpl in Hl. lia.
Qed.

(** In a binary genotype without a character 1 every character is 0. *)
Lemma wildtype_get g : forall i ch,
  is_binary g = true -> count "1" g = 0%nat ->
  String.get i g = Some ch -> ch = "0"%char.
Proof.
  induction g as [|a g IH]; intros i ch Hb Hc Hg; simpl in *; [discriminate|].
  apply andb_prop in Hb. destruct Hb as [Ha Hb].
  destruct (Ascii.eqb_spec a "1") as [->|Hn1]; [simpl in Hc; lia|].
  destruct i as [|i].
  - injection Hg as <-. apply orb_prop in Ha. destruct Ha as [Ha|Ha].
    + apply Ascii.eqb_eq. exact Ha.
    + discriminate Ha.
  - eapply IH; eassumption.
Qed.

Lemma dv_entry_wildtype g l z :
  is_binary g = true -> count "1" g = 0%nat -> l <> [] ->
  dv_entry LocalEpistasisModel.encoding g l = Ok z -> z = 0%Z.
Proof.
  intros Hb Hc Hl. destruct l as [|s l]; [contradiction|].
  unfold dv_entry. simpl. intros H. inv_bind H. inv_bind Ha. inv_bind Ha.
  injection Ha as <-. injection H as <-. simpl.
  unfold site_value in Ha0. destruct s as [|i]; [discriminate|].
  destruct (String.get i g) as [ch|] eqn:Eg; [|discriminate].
  rewrite (wildtype_get _ _ Hb Hc Eg) in Ha0. simpl in Ha0.
  injection Ha0 as <-. reflexivity.
Qed.

Lemma dot_all_zero zs v : Forall (fun x => x = 0) zs -> dot zs v = 0.
Proof.
  intros Hz; revert v; induction Hz as [|x zs -> _ IH]; intros [|y v]; simpl;
    try reflexivity.
  rewrite IH. ring.
Qed.

(** The row of the design matrix for a genotype without mutation: the
    intercept column and nothing else. *)
Lemma dv_row_wildtype g labels r v :
  count "1" g = 0%nat ->
  (exists rest, labels = [] :: rest /\ Forall (fun l => l <> []) rest) ->
  dv_row LocalEpistasisModel.encoding labels g = Ok r ->
  dot r v = nth 0 v 0.
Proof.
  intros Hc (rest & -> & Hrest). unfold dv_row.
  destruct (is_binary g) eqn:Hb; [|discriminate].
  simpl. intros H. inv_bind H. inv_bind Ha. injection Ha as <-. injection H as <-.
  assert (Hz : Forall (fun x => x = 0) (map IZR a0)).
  { apply Forall_map.
    assert (Hall : Forall (fun z => z = 0%Z) a0).
    { clear - Ha0 Hrest Hb Hc. revert a0 Ha0.
      induction Hrest as [|l rest Hl _ IH]; simpl; intros zs H.
      - injection H as <-. constructor.
      - inv_bind H. inv_bind H. injection H as <-. constructor.
        + eapply dv_entry_wildtype; eassumption.
        + apply IH. exact Ha0. }
    eapply Forall_impl; [|exact Hall]. intros z ->. reflexivity. }
  destruct v as [|x v]; simpl; [reflexivity|].
  rewrite (dot_all_zero v Hz). ring.
Qed.

(** X10: on a constructed local model with one phenotype per genotype,
    [fit()] sets the first coefficient, the intercept, to the phenotype of
    the genotype that carries no mutation (no character 1), wherever that
    genotype stands in the list. *)
Theorem local_intercept_is_wildtype (self : BaseModel.t) (m : Model)
    (i : nat) (g : string) :
  LocalEpistasisModel.__init__ self = Ok m ->
  length (Binary.phenotypes (BaseModel.Binary self)) = BaseModel.n self ->
  nth_error (Binary.genotypes (BaseModel.Binary self)) i = Some g ->
  count "1" g = 0%nat ->
  exists v,
    LocalEpistasisModel.fit m = Ok (set_values m v) /\
    nth 0 v 0 = nth i (Binary.phenotypes (BaseModel.Binary self)) 0.
Proof.
  intros Hm Hp Hg Hc.
  change (init_of Local self = Ok m) in Hm. rewrite init_of_construct in Hm.
  destruct (constructed_model _ _ Hm) as (Hinv & HsX & _ & _).
  apply construct_model_Ok in Hm.
  destruct Hm as (Hb & _ & _ & _ & Hls & HX & _).
  assert (Hn : n m = BaseModel.n self) by (unfold n; rewrite Hb; reflexivity).
  assert (HB : Binary m = BaseModel.Binary self)
    by (unfold Binary; rewrite Hb; reflexivity).
  rewrite Hn in HsX. rewrite <- HB in Hp.
  destruct (local_fit_round_trip m Hinv HsX Hp) as [Hfit Hdot].
  set (v := map (fun r => dot r (Binary.phenotypes (Binary m))) (rows (X_inv m))) in *.
  exists v. split; [exact Hfit|]. clear Hfit. clearbody v.
  unfold np_dot in Hdot.
  destruct (Nat.eqb (snd (shape (X m))) _); [|discriminate].
  injection Hdot as Hdot. rewrite <- HB, <- Hdot. rewrite nth_matvec.
  unfold design_matrix, _construct_interactions in HX.
  rewrite Hls in HX. simpl in HX. unfold generate_dv_matrix in HX.
  inv_bind HX. destruct (X m) as [sX rX]. injection HX as _ <-.
  destruct (mapM_Ok_nth _ _ _ Ha Hg) as (r & Hr & Hrow).
  simpl. rewrite (nth_error_nth _ _ [] Hr). symmetry.
  eapply dv_row_wildtype; [exact Hc | | exact Hrow].
  eapply interaction_labels_intercept. exact Hls.
Qed.

Lemma local_intercept_is_wildtype_witness :
  exists v,
    LocalEpistasisModel.fit fixture_local_model
    = Ok (set_values fixture_local_model v) /\
    nth 0 v 0 = 1 / 10.
Proof.
  exact (local_intercept_is_wildtype fixture 0 fixture_local_init eq_refl
           eq_refl eq_refl).
Defined.

(* ------------------------------------------------------------ *)
(** ** Linearity of the fit *)
(* ------------------------------------------------------------ *)

Lemma dot_vadd_r r u v :
  length u = length v -> dot r (vadd u v) = dot r u + dot r v.
Proof.
  revert u v; induction r as [|x r IH]; intros [|y u] [|z v] Hl;
    simpl in *; try discriminate; try ring.
  unfold vadd in IH. rewrite IH by lia. ring.
Qed.

Lemma vadd_map {A : Type} (f g : A -> R) xs :
  vadd (map f xs) (map g xs) = map (fun x => f x + g x) xs.
Proof.
  induction xs as [|x xs IH]; simpl; [reflexivity|].
  unfold vadd in *. simpl. rewrite IH. reflexivity.
Qed.

Lemma vscale_vadd k a b u v :
  vscale k (vadd (vscale a u) (vscale b v))
  = vadd (vscale a (vscale k u)) (vscale b (vscale k v)).
Proof.
  revert v; induction u as [|s u IH]; intros [|t v]; simpl; try reflexivity.
  unfold vadd, vscale in *. simpl. rewrite IH. f_equal. ring.
Qed.

Lemma np_dot_Ok_inv A v w :
  np_dot A v = Ok w ->
  snd (shape A) = length v /\ w = map (fun r => dot r v) (rows A).
Proof.
  unfold np_dot. destruct (Nat.eqb_spec (snd (shape A)) (length v)); [|discriminate].
  intros H. injection H as <-. split; [assumption | reflexivity].
Qed.

(** The product of a matrix with a linear combination of two vectors. *)
Lemma matvec_linear (rs : list vector) a b p q :
  length p = length q ->
  map (fun r => dot r (vadd (vscale a p) (vscale b q))) rs
  = vadd (vscale a (map (fun r => dot r p) rs))
         (vscale b (map (fun r => dot r q) rs)).
Proof.
  intros Hl. unfold vscale at 3 4. rewrite !map_map, vadd_map.
  apply map_ext. intros r.
  rewrite dot_vadd_r by (rewrite !length_vscale; exact Hl).
  rewrite !dot_vscale_r. reflexivity.
Qed.

(** The constructors do not read the phenotypes. *)
Lemma construct_model_phenotypes encoding self m p :
  construct_model encoding self = Ok m ->
  construct_model encoding (with_phenotypes self p)
  = Ok (mkModel (with_phenotypes self p) (order m) (Interactions m)
          (X m) (X_inv m)).
Proof.
  unfold construct_model, _construct_interactions, with_phenotypes. simpl.
  intros H. inv_bind H. inv_bind Ha. inv_bind H. inv_bind H.
  injection Ha as <-. injection H as <-.
  rewrite Ha0. simpl. simpl in Ha1. rewrite Ha1. simpl. rewrite Ha2.
  reflexivity.
Qed.

(** X9: the fit is linear in the phenotypes.  When two maps over the same
    genotypes, with phenotype vectors [p] and [q] of one length, are
    constructed and fitted to the coefficients [vp] and [vq], the map with
    the phenotypes [a p + b q] is constructed and fitted to [a vp + b vq],
    in either class. *)
Theorem fit_is_linear (c : variant) (self : BaseModel.t) (p q : vector)
    (a b : R) (mp mq : Model) (vp vq : vector) :
  init_of c (with_phenotypes self p) = Ok mp ->
  call c Fit mp = Ok (set_values mp vp) ->
  init_of c (with_phenotypes self q) = Ok mq ->
  call c Fit mq = Ok (set_values mq vq) ->
  length p = length q ->
  exists mr,
    init_of c (with_phenotypes self (vadd (vscale a p) (vscale b q))) = Ok mr /\
    call c Fit mr = Ok (set_values mr (vadd (vscale a vp) (vscale b vq))).
Proof.
  intros Hmp Hvp Hmq Hvq Hl. rewrite init_of_construct in *.
  set (r := vadd (vscale a p) (vscale b q)).
  assert (Hr := @construct_model_phenotypes _ _ _ r Hmp).
  assert (Hq := @construct_model_phenotypes _ _ _ q Hmp).
  change (with_phenotypes (with_phenotypes self p) r)
    with (with_phenotypes self r) in Hr.
  change (with_phenotypes (with_phenotypes self p) q)
    with (with_phenotypes self q) in Hq.
  rewrite Hmq in Hq. injection Hq as ->.
  apply construct_model_Ok in Hmp. destruct Hmp as (Hb & _).
  eexists. split; [exact Hr|].
  assert (Hlr : length r = length p).
  { unfold r. rewrite length_vadd; rewrite !length_vscale; congruence. }
  destruct c; cbn [call] in *.
  - unfold LocalEpistasisModel.fit, Binary in *. cbn [base X_inv] in *.
    rewrite Hb in Hvp. cbn in Hvp, Hvq |- *.
    inv_bind Hvp. inv_bind Hvq. injection Hvp as ->. injection Hvq as ->.
    apply np_dot_Ok_inv in Ha, Ha0. destruct Ha as [Hs ->], Ha0 as [_ ->].
    rewrite np_dot_Ok by congruence. cbn [bind]. unfold set_values. cbn.
    do 4 f_equal. apply matvec_linear. exact Hl.
  - unfold GlobalEpistasisModel.fit, n, BaseModel.n, Binary in *.
    cbn [base X_inv] in *. rewrite Hb in Hvp. cbn in Hvp, Hvq |- *.
    inv_bind Hvp. inv_bind Hvp. inv_bind Hvq. inv_bind Hvq.
    injection Hvp as <-. injection Hvq as <-.
    rewrite Ha in Ha1. injection Ha1 as <-. rewrite Ha. cbn [bind].
    apply np_dot_Ok_inv in Ha0, Ha2. destruct Ha0 as [Hs ->], Ha2 as [_ ->].
    rewrite np_dot_Ok by congruence. cbn [bind]. unfold set_values. cbn.
    do 4 f_equal. unfold r. rewrite (@matvec_linear _ a b p q Hl).
    apply vscale_vadd.
Qed.

Lemma fit_is_linear_witness :
  exists mr,
    init_of Local (one_site (vadd (vscale 2 [1; 3]) (vscale (-1) [2; 5])) None)
    = Ok mr /\
    call Local Fit mr
    = Ok (set_values mr
            (vadd (vscale 2 (map (fun r => dot r [1; 3]) (rows one_site_local_X_inv)))
                  (vscale (-1) (map (fun r => dot r [2; 5]) (rows one_site_local_X_inv))))).
Proof.
  exact (@fit_is_linear Local (one_site [] None) [1; 3] [2; 5] 2 (-1) _ _ _ _
           (one_site_init Local [1; 3] None) eq_refl
           (one_site_init Local [2; 5] None) eq_refl eq_refl).
Defined.
